(** * Common Python Mistakes: a shallow embedding of [demo.ipynb]

    The notebook shows three pitfalls of Python: late-binding closures
    ([times_table], [transform_image]), mutable default arguments
    ([add_item]) and identity comparison of integers ([something]).

    Every one of them is about state that outlives a call: a closure cell,
    a list object bound once to a parameter default, a constant of a code
    object.  The embedding therefore runs the functions of the notebook in
    a state-and-exception monad over an explicit interpreter state, in
    which lists, cells and function objects are referred to by location,
    so that two names of one object are two copies of one location. *)

From stdpp Require Import base numbers list strings.

Set Default Proof Using "Type".
Open Scope Z_scope.

(** ** Exceptions and the interpreter monad *)

Inductive exn : Type :=
  | TypeError
  | NameError
  | AttributeError
  | SystemError
  | FileNotFoundError
  | UnidentifiedImageError.

Inductive outcome (A : Type) : Type :=
  | Ok (a : A)
  | Raise (e : exn).
Arguments Ok {A} a.
Arguments Raise {A} e.

(** A computation reads a state, returns a value or raises, and leaves a
    state behind.  The notebook has no [try], so a raised exception skips
    the rest of whatever it is bound into. *)
Definition M (S A : Type) : Type := S → outcome A * S.

Definition ret {S A} (a : A) : M S A := λ s, (Ok a, s).
Definition raise {S A} (e : exn) : M S A := λ s, (Raise e, s).
Definition bind {S A B} (m : M S A) (k : A → M S B) : M S B :=
  λ s, match m s with
       | (Ok a, s') => k a s'
       | (Raise e, s') => (Raise e, s')
       end.
Definition gets {S A} (f : S → A) : M S A := λ s, (Ok (f s), s).
Definition modify {S} (f : S → S) : M S unit := λ s, (Ok tt, f s).

Declare Scope py_scope.
Delimit Scope py_scope with py.
Notation "x <- m ;; k" := (bind m (λ x, k))
  (at level 100, m at next level, k at level 200, right associativity) : py_scope.
Notation "m ;; k" := (bind m (λ _, k))
  (at level 100, k at level 200, right associativity) : py_scope.
Open Scope py_scope.

(** [for x in xs: body], for a body that neither breaks nor returns. *)
Fixpoint for_each {S A} (xs : list A) (body : A → M S unit) : M S unit :=
  match xs with
  | [] => ret tt
  | x :: xs' => body x ;; for_each xs' body
  end.

(** The state a computation ends in and the outcome it ends with. *)
Definition exec {S A} (m : M S A) (s : S) : S := (m s).2.
Definition eval {S A} (m : M S A) (s : S) : outcome A := (m s).1.

(** [range(start, stop)]; [range(n)] is [range 0 n]. *)
Definition range (start stop : Z) : list Z :=
  (λ k, start + Z.of_nat k) <$> seq 0 (Z.to_nat (stop - start)).

(** ** create_pipeline *)

Module Pipeline.
Section pipeline.
Context {S D : Type}.

(** [def pipeline(data): for operation in operations: data = operation(data);
    return data].  The loop rebinds the local [data]; it is threaded as
    the accumulator. *)
Fixpoint pipeline (operations : list (D → M S D)) (data : D) : M S D :=
  match operations with
  | [] => ret data
  | operation :: rest => data' <- operation data ;; pipeline rest data'
  end.

(** [create_pipeline] takes its operations as a star-argument and
    returns the inner function.  That closes over [operations], a tuple,
    which cannot be mutated and is never rebound. *)
Definition create_pipeline (operations : list (D → M S D)) : D → M S D :=
  pipeline operations.

(** The composition the specification writes [fn(...(f2(f1(x)))...)]:
    the last operation is the outermost, applied to what the operations
    before it make of [x]. *)
Definition apply_outside (f : D → M S D) (inner : M S D) : M S D :=
  y <- inner ;; f y.
Definition left_to_right (fs : list (D → M S D)) (x : D) : M S D :=
  foldr apply_outside (ret x) (reverse fs).
End pipeline.
End Pipeline.

(** ** Objects of the interactive session *)

(** Lists, closure cells and function objects live in the interpreter
    state and are named by their index there.  A value is what a Python
    name can be bound to: an immutable scalar, or a reference. *)
Abbreviation loc := nat.

Inductive value : Type :=
  | VNone
  | VBool (b : bool)
  | VInt (n : Z)
  | VStr (s : string)
  | VList (l : loc)
  | VFun (f : nat).

Global Instance value_eq_dec : EqDecision value.
Proof. solve_decision. Defined.

(** The function object [def multiplier] makes: its code is fixed, its
    closure is the one cell of the enclosing frame's variable [i]. *)
Record closure : Type := { cl_cell : nat }.

(** An integer object as [is] sees it: where it lives, and its value.
    CPython, the kernel of the notebook, keeps one object for each integer
    from -5 to 256; every other integer object is made when it is needed.
    Only [something] compares integers by identity, so only there are
    integers modelled as objects; elsewhere an integer is its value. *)
Inductive oid : Type :=
  | SmallInt (n : Z)
  | Alloc (k : nat).

Global Instance oid_eq_dec : EqDecision oid.
Proof. solve_decision. Defined.

Record pyint : Type := { ob_id : oid; ob_val : Z }.

(** A code object, reduced to the integers among its constants. *)
Record code : Type := { co_consts : list pyint }.

(** What [print] wrote: a scalar, or the elements a list had then. *)
Inductive printed : Type :=
  | PVal (v : value)
  | PList (xs : list value).

Record world : Type := {
  lists : list (list value);     (* list objects, by location *)
  cells : list (option value);   (* closure cells; [None] is unbound *)
  funs : list closure;           (* function objects made by [def multiplier] *)
  next_id : nat;                 (* integer objects allocated so far *)
  out : list printed;            (* standard output, oldest line first *)
}.

Definition empty_world : world :=
  {| lists := []; cells := []; funs := []; next_id := 0; out := [] |}.

Definition set_lists (f : list (list value) → list (list value)) (w : world) : world :=
  {| lists := f (lists w); cells := cells w; funs := funs w;
     next_id := next_id w; out := out w |}.
Definition set_cells (f : list (option value) → list (option value)) (w : world) : world :=
  {| lists := lists w; cells := f (cells w); funs := funs w;
     next_id := next_id w; out := out w |}.
Definition set_funs (f : list closure → list closure) (w : world) : world :=
  {| lists := lists w; cells := cells w; funs := f (funs w);
     next_id := next_id w; out := out w |}.
Definition set_next_id (f : nat → nat) (w : world) : world :=
  {| lists := lists w; cells := cells w; funs := funs w;
     next_id := f (next_id w); out := out w |}.
Definition set_out (f : list printed → list printed) (w : world) : world :=
  {| lists := lists w; cells := cells w; funs := funs w;
     next_id := next_id w; out := f (out w) |}.

(** *** Lists *)

(** [[]] or any other list display: a new list object. *)
Definition new_list (xs : list value) : M world loc :=
  l <- gets (λ w, length (lists w)) ;;
  modify (set_lists (λ h, h ++ [xs])) ;;
  ret l.

Definition read_list (l : loc) : M world (list value) :=
  o <- gets (λ w, lists w !! l) ;;
  match o with
  | Some xs => ret xs
  | None => raise SystemError
  end.

(** [target.append(x)]: in place when [target] is a list; no other value
    of this model has an [append] attribute. *)
Definition list_append (target : value) (x : value) : M world unit :=
  match target with
  | VList l =>
      xs <- read_list l ;;
      modify (set_lists (λ h, <[l := xs ++ [x]]> h))
  | _ => raise AttributeError
  end.

(** *** Cells and function objects *)

Definition new_cell : M world nat :=
  c <- gets (λ w, length (cells w)) ;;
  modify (set_cells (λ cs, cs ++ [None])) ;;
  ret c.

Definition store_deref (c : nat) (v : value) : M world unit :=
  modify (set_cells (λ cs, <[c := Some v]> cs)).

Definition load_deref (c : nat) : M world value :=
  o <- gets (λ w, cells w !! c) ;;
  match o with
  | Some (Some v) => ret v
  | Some None => raise NameError
  | None => raise SystemError
  end.

Definition make_function (clo : closure) : M world value :=
  f <- gets (λ w, length (funs w)) ;;
  modify (set_funs (λ fs, fs ++ [clo])) ;;
  ret (VFun f).

(** *** Multiplication *)

Definition as_int (v : value) : option Z :=
  match v with
  | VInt n => Some n
  | VBool b => Some (Z.b2z b)
  | _ => None
  end.

Fixpoint str_repeat (n : nat) (s : string) : string :=
  match n with
  | O => EmptyString
  | Datatypes.S n' => String.append s (str_repeat n' s)
  end.

(** [n * s] for a sequence [s]: a new sequence, empty when [n <= 0]. *)
Definition seq_repeat (n : Z) (s : value) : M world value :=
  match s with
  | VStr t => ret (VStr (str_repeat (Z.to_nat n) t))
  | VList l =>
      xs <- read_list l ;;
      l' <- new_list (mjoin (replicate (Z.to_nat n) xs)) ;;
      ret (VList l')
  | _ => raise TypeError
  end.

(** The binary [*] on the values of this model. *)
Definition py_mul (a b : value) : M world value :=
  match as_int a, as_int b with
  | Some m, Some n => ret (VInt (m * n))
  | Some m, None => seq_repeat m b
  | None, Some n => seq_repeat n a
  | None, None => raise TypeError
  end.

(** *** print *)

Definition print (v : value) : M world unit :=
  match v with
  | VList l => xs <- read_list l ;; modify (set_out (λ o, o ++ [PList xs]))
  | _ => modify (set_out (λ o, o ++ [PVal v]))
  end.

(** ** Late binding closures: times_table *)

(** [def multiplier(x): return i * x].  [i] is a free variable: it is
    read from the cell when the function is called. *)
Definition multiplier (i : nat) (x : value) : M world value :=
  iv <- load_deref i ;;
  py_mul iv x.

(** Calling a value: the only function objects in the state are the
    [multiplier] closures. *)
Definition call (f : value) (x : value) : M world value :=
  match f with
  | VFun k =>
      o <- gets (λ w, funs w !! k) ;;
      match o with
      | Some clo => multiplier (cl_cell clo) x
      | None => raise SystemError
      end
  | _ => raise TypeError
  end.

(** [times_table()].  [i] is captured by the inner function, so the frame
    holds it in a cell, made once per call and rebound by the loop; every
    [def multiplier] makes a new function object over that same cell. *)
Definition times_table : M world value :=
  table <- new_list [] ;;
  i <- new_cell ;;
  for_each (range 0 10) (λ n,
    store_deref i (VInt n) ;;
    m <- make_function {| cl_cell := i |} ;;
    list_append (VList table) m) ;;
  ret (VList table).

(** [[f(x) for f in fs]], as in the cell after [times_table]. *)
Fixpoint call_each (fs : list value) (x : value) : M world (list value) :=
  match fs with
  | [] => ret []
  | f :: fs' => y <- call f x ;; ys <- call_each fs' x ;; ret (y :: ys)
  end.

(** The cell after the definition, [[f(5) for f in times_table()]], for
    any argument in the place of 5. *)
Definition times_table_cell (x : value) : M world (list value) :=
  fs <- times_table ;;
  match fs with
  | VList t => table <- read_list t ;; call_each table x
  | _ => raise TypeError
  end.

(** The table the docstring of [times_table] gives for 5, for any integer:
    [[0 * n, 1 * n, ..., 9 * n]]. *)
Definition docstring_table (n : Z) : list value :=
  (λ i, VInt (i * n)) <$> range 0 10.

(** ** Mutable default arguments: add_item *)

(** The function object of [add_item], reduced to its [__defaults__]:
    the list object its parameter [items] is bound to when omitted. *)
Record function : Type := { defaults_items : loc }.

(** Executing [def add_item(item, items=[])]: the default expression is
    evaluated here, once. *)
Definition def_add_item : M world function :=
  d <- new_list [] ;;
  ret {| defaults_items := d |}.

(** [add_item(item)] is [add_item fn item None], [add_item(item, ys)] is
    [add_item fn item (Some ys)]. *)
Definition add_item (fn : function) (item : value) (items : option value)
    : M world value :=
  let items := default (VList (defaults_items fn)) items in
  list_append items item ;;
  ret items.

(** Consecutive calls that omit [items], with what each returned. *)
Fixpoint add_items (fn : function) (xs : list value) : M world (list value) :=
  match xs with
  | [] => ret []
  | x :: xs' =>
      r <- add_item fn x None ;;
      rs <- add_items fn xs' ;;
      ret (r :: rs)
  end.

(** The cell that follows the definition in the notebook; it returns what
    [v] is bound to. *)
Definition add_item_cell (fn : function) : M world value :=
  v <- add_item fn (VInt 1) None ;;
  (r <- add_item fn (VInt 2) None ;; print r) ;;
  (r <- add_item fn (VInt 3) None ;; print r) ;;
  (r <- add_item fn (VInt 4) None ;; print r) ;;
  print v ;;
  a <- add_item fn (VInt 5) None ;;
  ret v.

(** ** Integer caching: something *)

Definition is_small_int (n : Z) : bool := bool_decide (-5 ≤ n ≤ 256).

(** The object of an integer constant: the cached one when there is one,
    a newly allocated one otherwise. *)
Definition new_int (n : Z) : M world pyint :=
  if is_small_int n then ret {| ob_id := SmallInt n; ob_val := n |}
  else
    k <- gets next_id ;;
    modify (set_next_id Datatypes.S) ;;
    ret {| ob_id := Alloc k; ob_val := n |}.

Definition find_const (consts : list pyint) (n : Z) : option pyint :=
  List.find (λ o, bool_decide (ob_val o = n)) consts.

(** The compiler adds a constant to the constants of the code object it
    is building only if no equal constant is there yet, so that every
    occurrence of a literal in one function body loads one object. *)
Definition add_const (consts : list pyint) (n : Z) : M world (list pyint) :=
  match find_const consts n with
  | Some _ => ret consts
  | None => o <- new_int n ;; ret (consts ++ [o])
  end.

Fixpoint compile_consts (literals : list Z) (consts : list pyint)
    : M world (list pyint) :=
  match literals with
  | [] => ret consts
  | n :: rest => consts' <- add_const consts n ;; compile_consts rest consts'
  end.

(** The integer literals of the body of [something], in source order. *)
Definition something_literals : list Z :=
  [10; 10; 10; 123456; 123456; 123456].

(** Executing [def something()]: the body is compiled to a code object. *)
Definition def_something : M world code :=
  consts <- compile_consts something_literals [] ;;
  ret {| co_consts := consts |}.

(** Evaluating a literal at run time loads the constant from the code
    object; nothing is allocated. *)
Definition load_const (co : code) (n : Z) : M world pyint :=
  match find_const (co_consts co) n with
  | Some o => ret o
  | None => raise SystemError
  end.

Definition py_eq (a b : pyint) : bool := bool_decide (ob_val a = ob_val b).
Definition py_is (a b : pyint) : bool := bool_decide (ob_id a = ob_id b).

Definition something (co : code) : M world value :=
  a <- load_const co 10 ;;
  (k <- load_const co 10 ;; print (VBool (py_eq a k))) ;;
  (k <- load_const co 10 ;; print (VBool (py_is a k))) ;;
  c <- load_const co 123456 ;;
  (k <- load_const co 123456 ;; print (VBool (py_eq c k))) ;;
  (k <- load_const co 123456 ;; print (VBool (py_is c k))) ;;
  ret VNone.

(** The cell defines the function and calls it. *)
Definition something_cell : M world value :=
  co <- def_something ;;
  something co.

(** What a computation adds to standard output. *)
Definition printed_by {A} (m : M world A) (w : world) : list printed :=
  drop (length (out w)) (out (exec m w)).

(** The lines [something] prints, read off its code object. *)
Definition lines_of (co : code) : list printed :=
  match find_const (co_consts co) 10, find_const (co_consts co) 123456 with
  | Some a, Some c =>
      [PVal (VBool (py_eq a a)); PVal (VBool (py_is a a));
       PVal (VBool (py_eq c c)); PVal (VBool (py_is c c))]
  | Some a, None => [PVal (VBool (py_eq a a)); PVal (VBool (py_is a a))]
  | None, _ => []
  end.

(** ** The session: calls in any order *)

(** The functions the definitions of the notebook have bound. *)
Record session : Type := {
  s_add_item : function;
  s_something : code;
}.

Inductive invocation : Type :=
  | AddItem (item : value) (items : option value)
  | TimesTable
  | Something
  | Call (f : value) (x : value).

Definition invoke (ss : session) (c : invocation) : M world value :=
  match c with
  | AddItem item items => add_item (s_add_item ss) item items
  | TimesTable => times_table
  | Something => something (s_something ss)
  | Call f x => call f x
  end.

(** Calls made one after another from the top level; an exception ends
    the call that raised it, and the session goes on. *)
Fixpoint run_session (ss : session) (cs : list invocation) (w : world) : world :=
  match cs with
  | [] => w
  | c :: cs' => run_session ss cs' (exec (invoke ss c) w)
  end.

(** The two definitions of the notebook that bind a function the session
    calls later. *)
Definition start_session : M world session :=
  fn <- def_add_item ;;
  co <- def_something ;;
  ret {| s_add_item := fn; s_something := co |}.

(** The list a call of [add_item] appends to. *)
Definition target (ss : session) (items : option value) : value :=
  default (VList (defaults_items (s_add_item ss))) items.

(** What one call appends to the list at [d]. *)
Definition appends_to (ss : session) (d : loc) (c : invocation) : list value :=
  match c with
  | AddItem item items =>
      if decide (target ss items = VList d) then [item] else []
  | _ => []
  end.

Definition is_add_item (c : invocation) : bool :=
  match c with AddItem _ _ => true | _ => false end.

(** The elements of the list a computation returned, in the state it
    left. *)
Definition returned_list (r : outcome value * world) : list value :=
  match r with
  | (Ok (VList l), w) => default [] (lists w !! l)
  | _ => []
  end.

(** ** Late binding closures: transform_image *)

(** PIL, NumPy and SciPy are not part of the notebook.  What
    [transform_image] uses of them is an interface: arrays and images are
    abstract, the array functions are total, and opening a file gives an
    image or raises. *)
Class Imaging : Type := {
  ndarray : Type;
  pil_image : Type;
  shape : Type;
  pyfloat : Type;
  rng_state : Type;
  float_0_1 : pyfloat;
  Image_open : string → outcome pil_image;
  Image_convert : pil_image → string → pil_image;
  Image_fromarray : ndarray → pil_image;
  np_array : pil_image → ndarray;
  np_shape : ndarray → shape;
  np_divide : ndarray → Z → ndarray;
  np_multiply : ndarray → Z → ndarray;
  np_add : ndarray → ndarray → ndarray;
  np_clip : ndarray → Z → Z → ndarray;
  np_astype_uint8 : ndarray → ndarray;
  np_random_normal : Z → pyfloat → shape → rng_state → ndarray * rng_state;
  gaussian_filter : ndarray → Z → ndarray;
}.

Module Blur.
Section blur.
Context `{Imaging}.

Record state : Type := {
  sigma_cells : list (option Z);  (* cells of comprehension variables *)
  rng : rng_state;                (* NumPy's global generator *)
  displayed : list pil_image;     (* what [display] has shown *)
}.

Definition new_cell : M state nat :=
  c <- gets (λ s, length (sigma_cells s)) ;;
  modify (λ s, {| sigma_cells := sigma_cells s ++ [None];
                  rng := rng s; displayed := displayed s |}) ;;
  ret c.

Definition store_deref (c : nat) (v : Z) : M state unit :=
  modify (λ s, {| sigma_cells := <[c := Some v]> (sigma_cells s);
                  rng := rng s; displayed := displayed s |}).

Definition load_deref (c : nat) : M state Z :=
  o <- gets (λ s, sigma_cells s !! c) ;;
  match o with
  | Some (Some v) => ret v
  | Some None => raise NameError
  | None => raise SystemError
  end.

Definition display (image : pil_image) : M state unit :=
  modify (λ s, {| sigma_cells := sigma_cells s; rng := rng s;
                  displayed := displayed s ++ [image] |}).

Definition of_outcome {A} (o : outcome A) : M state A := λ s, (o, s).

(** [SIGMAS = list(range(1, 10))] *)
Definition SIGMAS : list Z := range 1 10.

Definition normalize (image : ndarray) : M state ndarray :=
  ret (np_divide image 255).

(** [np.random.normal(mean, std, shape)] draws from the global generator
    and advances it. *)
Definition random_normal (mean : Z) (std : pyfloat) (sh : shape) : M state ndarray :=
  λ s, let r := np_random_normal mean std sh (rng s) in
       (Ok r.1, {| sigma_cells := sigma_cells s; rng := r.2;
                   displayed := displayed s |}).

Definition add_noise (image : ndarray) (mean : Z) (std : pyfloat)
    : M state ndarray :=
  noise <- random_normal mean std (np_shape image) ;;
  ret (np_clip (np_add image noise) 0 1).

(** [lambda image: gaussian_filter(image, sigma+1)], over the cell of the
    comprehension's [sigma]. *)
Definition blur (sigma : nat) (image : ndarray) : M state ndarray :=
  s <- load_deref sigma ;;
  ret (gaussian_filter image (s + 1)).

(** [[elt for x in xs]]: the loop of a list comprehension. *)
Fixpoint list_comp {A B} (xs : list A) (elt : A → M state B) : M state (list B) :=
  match xs with
  | [] => ret []
  | x :: xs' => y <- elt x ;; ys <- list_comp xs' elt ;; ret (y :: ys)
  end.

(** The comprehension runs in a scope of its own, in which [sigma] is
    one cell, rebound for every element of [SIGMAS]. *)
Definition blur_operations : M state (list (ndarray → M state ndarray)) :=
  sigma <- new_cell ;;
  list_comp SIGMAS (λ v, store_deref sigma v ;; ret (blur sigma)).

Definition transform_image (image_path : string) : M state unit :=
  image <- of_outcome (Image_open image_path) ;;
  let image := Image_convert image "L" in
  let image_np := np_array image in
  blur_ops <- blur_operations ;;
  let operations :=
    [normalize; (λ image, add_noise image 0 float_0_1)] ++ blur_ops in
  let pipeline := Pipeline.create_pipeline operations in
  processed_image_np <- pipeline image_np ;;
  let processed_image_np :=
    np_astype_uint8 (np_clip (np_multiply processed_image_np 255) 0 255) in
  let processed_image := Image_fromarray processed_image_np in
  display processed_image.
End blur.
End Blur.

(** A small instance of the interface, to run [transform_image] on: an
    image is one integer, a blur adds its sigma, the only file is
    [./image.png]. *)
Definition toy_imaging : Imaging := {|
  ndarray := Z;
  pil_image := Z;
  shape := unit;
  pyfloat := unit;
  rng_state := Z;
  float_0_1 := tt;
  Image_open path :=
    if decide (path = "./image.png"%string) then Ok 510 else Raise FileNotFoundError;
  Image_convert img _ := img;
  Image_fromarray a := a;
  np_array img := img;
  np_shape _ := tt;
  np_divide a n := a `div` n;
  np_multiply a n := a * n;
  np_add a b := a + b;
  np_clip a lo hi := lo `max` (a `min` hi);
  np_astype_uint8 a := a `mod` 256;
  np_random_normal _ _ _ g := (0, g + 1);
  gaussian_filter a sigma := a + sigma;
|}.

(** * Properties *)

(** ** The monad *)

Section monad_facts.
Context {S : Type}.

Lemma bind_ret_l {A B} (a : A) (k : A → M S B) (s : S) :
  bind (ret a) k s = k a s.
Proof. reflexivity. Qed.

Lemma bind_ret_r {A} (m : M S A) (s : S) : bind m ret s = m s.
Proof. unfold bind, ret. by destruct (m s) as [[a|e] s']. Qed.

Lemma bind_assoc {A B C} (m : M S A) (k : A → M S B) (h : B → M S C) (s : S) :
  bind (bind m k) h s = bind m (λ a, bind (k a) h) s.
Proof. unfold bind. by destruct (m s) as [[a|e] s']. Qed.

Lemma bind_raise {A B} (m : M S A) (k : A → M S B) (s s' : S) (e : exn) :
  m s = (Raise e, s') → bind m k s = (Raise e, s').
Proof. unfold bind. by intros ->. Qed.

Lemma bind_ok {A B} (m : M S A) (k : A → M S B) (s s' : S) (a : A) :
  m s = (Ok a, s') → bind m k s = k a s'.
Proof. unfold bind. by intros ->. Qed.

Lemma bind_ext {A B} (m : M S A) (k k' : A → M S B) (s : S) :
  (∀ a s', k a s' = k' a s') → bind m k s = bind m k' s.
Proof. intros Hk. unfold bind. destruct (m s) as [[a|e] s']; [apply Hk | done]. Qed.
End monad_facts.

(** ** create_pipeline *)

Section pipeline_facts.
Context {S D : Type}.
Implicit Types (fs : list (D → M S D)) (x : D) (s : S).

Lemma pipeline_foldr fs (m : M S D) s :
  foldr Pipeline.apply_outside m (reverse fs) s = bind m (Pipeline.pipeline fs) s.
Proof.
  revert m s. induction fs as [|f fs IH]; intros m s; simpl.
  - by rewrite bind_ret_r.
  - rewrite reverse_cons, foldr_app. simpl. rewrite IH.
    unfold Pipeline.apply_outside. apply bind_assoc.
Qed.

Lemma pipeline_app fs gs x s :
  Pipeline.pipeline (fs ++ gs) x s
  = bind (Pipeline.pipeline fs x) (Pipeline.pipeline gs) s.
Proof.
  revert x s. induction fs as [|f fs IH]; intros x s; simpl; [done|].
  rewrite bind_assoc. apply bind_ext. intros a s'. apply IH.
Qed.

(** C8.  The function [create_pipeline] returns applies the operations
    from left to right, the last one outermost, [fn(...(f2(f1(x)))...)],
    and with no operation it returns its argument unchanged. *)
Theorem create_pipeline_left_to_right :
  (∀ fs x s, Pipeline.create_pipeline fs x s = Pipeline.left_to_right fs x s)
  ∧ (∀ x s, Pipeline.create_pipeline [] x s = (Ok x, s))
  ∧ (∀ fs fn x s,
       Pipeline.create_pipeline (fs ++ [fn]) x s
       = bind (Pipeline.create_pipeline fs x) fn s).
Proof.
  split; [|split].
  - intros fs x s. unfold Pipeline.create_pipeline, Pipeline.left_to_right.
    by rewrite pipeline_foldr.
  - done.
  - intros fs fn x s. unfold Pipeline.create_pipeline.
    rewrite pipeline_app. apply bind_ext. intros a s'. simpl.
    apply bind_ret_r.
Qed.
End pipeline_facts.

(** X3.  With operations that neither raise nor touch the state, the
    pipeline neither raises nor touches the state, and its value is the
    plain composition of the functions, first to last. *)
Lemma create_pipeline_pure {S D} (gs : list (D → D)) (x : D) (s : S) :
  Pipeline.create_pipeline ((λ g d, ret (g d)) <$> gs) x s
  = (Ok (foldl (λ d g, g d) x gs), s).
Proof.
  unfold Pipeline.create_pipeline. revert x.
  induction gs as [|g gs IH]; intros x; simpl; [done|]. apply IH.
Qed.

Example create_pipeline_three :
  Pipeline.create_pipeline
    [(λ d, ret (d + 1)); (λ d, ret (d * 10)); (λ d, ret (d - 3))] 4 tt
  = (Ok 47, tt).
Proof. reflexivity. Qed.

(** ** The objects of the session *)

Ltac run :=
  unfold print, new_list, read_list, new_cell, store_deref, load_deref,
    make_function, bind, gets, modify, ret, raise, exec, eval,
    set_lists, set_cells, set_funs, set_next_id, set_out;
  cbn [lists cells funs next_id out fst snd].

Ltac fields :=
  unfold ret, raise, set_lists, set_cells, set_funs, set_next_id, set_out;
  cbn [lists cells funs next_id out fst snd defaults_items].

Lemma world_eq (w w' : world) :
  lists w = lists w' → cells w = cells w' → funs w = funs w' →
  next_id w = next_id w' → out w = out w' → w = w'.
Proof. destruct w, w'; simpl; by intros -> -> -> -> ->. Qed.

Lemma list_append_ok (l : loc) (xs : list value) (x : value) (w : world) :
  lists w !! l = Some xs →
  list_append (VList l) x w = (Ok tt, set_lists (λ h, <[l := xs ++ [x]]> h) w).
Proof. intros Hl. unfold list_append. run. by rewrite Hl. Qed.

Lemma list_append_dangling (l : loc) (x : value) (w : world) :
  lists w !! l = None → list_append (VList l) x w = (Raise SystemError, w).
Proof. intros Hl. unfold list_append. run. by rewrite Hl. Qed.


Lemma insert_end {A} (l : list A) (x y : A) : <[length l := y]> (l ++ [x]) = l ++ [y].
Proof. rewrite insert_app_r_alt by lia. by rewrite Nat.sub_diag. Qed.

Lemma lookup_end {A} (l : list A) (x : A) : (l ++ [x]) !! length l = Some x.
Proof. by rewrite list_lookup_middle. Qed.

(** ** times_table *)

Local Abbreviation loop_body table i :=
  (λ n : Z, store_deref i (VInt n) ;;
            m <- make_function {| cl_cell := i |} ;;
            list_append (VList table) m).

Lemma loop_body_spec (table i : nat) (n : Z) (xs : list value) (w : world) :
  lists w !! table = Some xs →
  loop_body table i n w
  = (Ok tt, {| lists := <[table := xs ++ [VFun (length (funs w))]]> (lists w);
               cells := <[i := Some (VInt n)]> (cells w);
               funs := funs w ++ [{| cl_cell := i |}];
               next_id := next_id w; out := out w |}).
Proof. intros Hl. unfold list_append. run. by rewrite Hl. Qed.

(** The loop invariant: after the loop has run over [ns], the table has one
    more function object for every element, all over the cell [i], and the
    cell holds the last element. *)
Lemma times_table_loop (table i : nat) (ns : list Z) (xs : list value) (w : world) :
  lists w !! table = Some xs →
  for_each ns (loop_body table i) w
  = (Ok tt, {| lists := <[table := xs ++ (VFun <$> seq (length (funs w)) (length ns))]> (lists w);
               cells := from_option (λ n, <[i := Some (VInt n)]> (cells w)) (cells w) (last ns);
               funs := funs w ++ replicate (length ns) {| cl_cell := i |};
               next_id := next_id w; out := out w |}).
Proof.
  revert xs w. induction ns as [|n ns IH]; intros xs w Hl.
  - simpl. unfold ret. f_equal. apply world_eq; simpl; try done.
    + by rewrite app_nil_r, list_insert_id.
    + by rewrite app_nil_r.
  - cbn [for_each].
    rewrite (bind_ok _ _ _ _ _ (loop_body_spec table i n xs w Hl)).
    rewrite (IH (xs ++ [VFun (length (funs w))])).
    2: { simpl. apply list_lookup_insert_eq. by eapply lookup_lt_Some. }
    f_equal. apply world_eq; simpl; try done.
    + rewrite list_insert_insert_eq, length_app. cbn [length seq fmap list_fmap].
      rewrite <-app_assoc, Nat.add_1_r. done.
    + destruct ns as [|n' ns]; [done|].
      rewrite last_cons_cons. destruct (last (n' :: ns)) eqn:Hlast; simpl.
      * apply list_insert_insert_eq.
      * by apply last_None in Hlast.
    + by rewrite <-app_assoc.
Qed.

(** What a call of [times_table] does to the state, whatever the state. *)
Lemma times_table_spec (w : world) :
  times_table w
  = (Ok (VList (length (lists w))),
     {| lists := lists w ++ [VFun <$> seq (length (funs w)) 10];
        cells := cells w ++ [Some (VInt 9)];
        funs := funs w ++ replicate 10 {| cl_cell := length (cells w) |};
        next_id := next_id w; out := out w |}).
Proof.
  unfold times_table.
  rewrite (bind_ok _ _ _ (set_lists (λ h, h ++ [[]]) w) (length (lists w))) by done.
  rewrite (bind_ok _ _ _ (set_cells (λ c, c ++ [None]) (set_lists (λ h, h ++ [[]]) w))
             (length (cells w))) by done.
  erewrite bind_ok.
  2: { apply (times_table_loop _ _ _ []). simpl. apply lookup_end. }
  unfold ret. f_equal. apply world_eq; simpl; try done.
  - apply insert_end.
  - apply insert_end.
Qed.

Lemma returned_list_times_table (w : world) :
  returned_list (times_table w) = VFun <$> seq (length (funs w)) 10.
Proof. rewrite times_table_spec. cbn [returned_list lists]. by rewrite lookup_end. Qed.

(** Every function of the returned table is a function object over the one
    cell the call made, in the state the call left and in every state that
    still has these function objects. *)
Lemma times_table_one_cell (w w2 : world) (f : value) :
  f ∈ returned_list (times_table w) →
  funs (exec times_table w) `prefix_of` funs w2 →
  ∃ k, f = VFun k ∧ funs w2 !! k = Some {| cl_cell := length (cells w) |}.
Proof.
  rewrite returned_list_times_table. unfold exec. rewrite times_table_spec.
  cbn [snd funs]. intros Hf Hpre.
  apply list_elem_of_fmap in Hf as (k & -> & Hk). apply elem_of_seq in Hk.
  exists k. split; [done|]. eapply prefix_lookup_Some; [|done].
  rewrite lookup_app_r by lia. apply lookup_replicate_2. lia.
Qed.

Lemma call_VFun (k c : nat) (x : value) (w : world) :
  funs w !! k = Some {| cl_cell := c |} → call (VFun k) x w = multiplier c x w.
Proof. intros Hk. unfold call. run. by rewrite Hk. Qed.

Lemma multiplier_bound (c : nat) (v x : value) (w : world) :
  cells w !! c = Some (Some v) → multiplier c x w = py_mul v x w.
Proof. intros Hc. unfold multiplier. run. by rewrite Hc. Qed.

(** C1.  The closures [times_table] returns all read the loop variable from
    the same cell when they are called, not when they are made: called in
    any state after the call, each multiplies its argument by what the cell
    holds then, so any two of them, called on the same argument in the same
    state, do the same and return the same. *)
Theorem times_table_closures_agree (w w2 : world) (f g x : value) :
  f ∈ returned_list (times_table w) →
  g ∈ returned_list (times_table w) →
  funs (exec times_table w) `prefix_of` funs w2 →
  call f x w2 = call g x w2
  ∧ call f x w2 = multiplier (length (cells w)) x w2
  ∧ (∀ v, cells w2 !! length (cells w) = Some (Some v) →
          call f x w2 = py_mul v x w2).
Proof.
  intros Hf Hg Hpre.
  destruct (times_table_one_cell w w2 f Hf Hpre) as (kf & -> & Hkf).
  destruct (times_table_one_cell w w2 g Hg Hpre) as (kg & -> & Hkg).
  rewrite (call_VFun _ _ _ _ Hkf), (call_VFun _ _ _ _ Hkg).
  split; [done|]. split; [done|]. intros v Hv. by apply multiplier_bound.
Qed.

Lemma times_table_closures_agree_witness :
  VFun 0 ∈ returned_list (times_table empty_world)
  ∧ VFun 9 ∈ returned_list (times_table empty_world)
  ∧ call (VFun 0) (VInt 5) (exec times_table empty_world)
    = call (VFun 9) (VInt 5) (exec times_table empty_world).
Proof.
  assert (H0 : VFun 0 ∈ returned_list (times_table empty_world))
    by (vm_compute; apply list_elem_of_here).
  assert (H9 : VFun 9 ∈ returned_list (times_table empty_world))
    by (vm_compute; do 9 apply list_elem_of_further; apply list_elem_of_here).
  split; [exact H0|]. split; [exact H9|].
  destruct (times_table_closures_agree empty_world (exec times_table empty_world)
              _ _ (VInt 5) H0 H9) as [Heq _]; [reflexivity | exact Heq].
Defined.

(** C6.  [times_table] returns a list of ten functions, and each of them
    multiplies its argument by 9, the value the loop left in [i]: on an
    integer [n] it returns [9 * n]. *)
Theorem times_table_all_nine (w : world) (x : value) :
  let w' := exec times_table w in
  (∃ t, eval times_table w = Ok (VList t))
  ∧ length (returned_list (times_table w)) = 10%nat
  ∧ Forall (λ f, call f x w' = py_mul (VInt 9) x w') (returned_list (times_table w))
  ∧ Forall (λ f, ∀ n, call f (VInt n) w' = (Ok (VInt (9 * n)), w'))
      (returned_list (times_table w)).
Proof.
  intros w'.
  assert (Hcall : ∀ f y, f ∈ returned_list (times_table w) →
                         call f y w' = py_mul (VInt 9) y w').
  { intros f y Hf.
    destruct (times_table_one_cell w w' f Hf) as (k & -> & Hk); [done|].
    rewrite (call_VFun _ _ _ _ Hk). apply multiplier_bound.
    subst w'. unfold exec. rewrite times_table_spec. cbn [snd cells].
    apply lookup_end. }
  split; [|split; [|split]].
  - exists (length (lists w)). unfold eval. by rewrite times_table_spec.
  - rewrite returned_list_times_table. by rewrite length_fmap, length_seq.
  - apply Forall_forall. intros f Hf. by apply Hcall.
  - apply Forall_forall. intros f Hf n. by rewrite Hcall.
Qed.

(** The call of the notebook: not the table the docstring promises. *)
Example times_table_docstring :
  eval (fs <- times_table ;;
        match fs with
        | VList t => table <- read_list t ;; call_each table (VInt 5)
        | _ => raise TypeError
        end) empty_world
  = Ok (VInt <$> [45; 45; 45; 45; 45; 45; 45; 45; 45; 45]).
Proof. reflexivity. Qed.

(** ** add_item *)

Lemma def_add_item_spec (w : world) :
  def_add_item w
  = (Ok {| defaults_items := length (lists w) |}, set_lists (λ h, h ++ [[]]) w).
Proof. reflexivity. Qed.

(** A call appends to the list it is given and returns that list. *)
Lemma add_item_explicit (fn : function) (x : value) (ys : loc)
    (xs : list value) (w : world) :
  lists w !! ys = Some xs →
  add_item fn x (Some (VList ys)) w
  = (Ok (VList ys), set_lists (λ h, <[ys := xs ++ [x]]> h) w).
Proof.
  intros Hl. unfold add_item. cbn [default].
  by rewrite (bind_ok _ _ _ _ _ (list_append_ok ys xs x w Hl)).
Qed.

(** A call that omits [items] is a call on the list of the defaults. *)
Lemma add_item_omitted (fn : function) (x : value) (w : world) :
  add_item fn x None w = add_item fn x (Some (VList (defaults_items fn))) w.
Proof. reflexivity. Qed.

Lemma add_item_default (fn : function) (x : value) (xs : list value) (w : world) :
  lists w !! defaults_items fn = Some xs →
  add_item fn x None w
  = (Ok (VList (defaults_items fn)),
     set_lists (λ h, <[defaults_items fn := xs ++ [x]]> h) w).
Proof. intros Hl. rewrite add_item_omitted. by apply add_item_explicit. Qed.

(** Calls that omit [items], one after another: each returns the list of
    the defaults, and together they append their items to it, in order. *)
Lemma add_items_spec (fn : function) (items xs : list value) (w : world) :
  lists w !! defaults_items fn = Some xs →
  add_items fn items w
  = (Ok (replicate (length items) (VList (defaults_items fn))),
     set_lists (λ h, <[defaults_items fn := xs ++ items]> h) w).
Proof.
  revert xs w. induction items as [|x items IH]; intros xs w Hl.
  - cbn [add_items]. unfold ret. f_equal. apply world_eq; try done.
    cbn [set_lists lists]. by rewrite app_nil_r, list_insert_id.
  - cbn [add_items].
    rewrite (bind_ok _ _ _ _ _ (add_item_default fn x xs w Hl)).
    erewrite bind_ok.
    2: { apply (IH (xs ++ [x])). cbn [set_lists lists].
         apply list_lookup_insert_eq. by eapply lookup_lt_Some. }
    unfold ret. cbn [length replicate]. f_equal. apply world_eq; try done.
    cbn [set_lists lists]. by rewrite list_insert_insert_eq, <-app_assoc.
Qed.

(** C2.  The default of [items] is one list, made when [def add_item] is
    executed.  After the definition, whatever the state it is executed in,
    calls [add_item(x1)], ..., [add_item(xn)] that all omit [items] succeed,
    and the n-th returns that list, which then holds [x1, ..., xn]. *)
Theorem add_item_accumulates (w : world) (xs : list value) (x : value) :
  ∃ fn w1 w2 w3,
    def_add_item w = (Ok fn, w1)
    ∧ lists w1 !! defaults_items fn = Some []
    ∧ add_items fn xs w1
      = (Ok (replicate (length xs) (VList (defaults_items fn))), w2)
    ∧ add_item fn x None w2 = (Ok (VList (defaults_items fn)), w3)
    ∧ lists w3 !! defaults_items fn = Some (xs ++ [x])
    ∧ returned_list (add_item fn x None w2) = xs ++ [x].
Proof.
  eexists _, _, _, _. split; [apply def_add_item_spec|].
  assert (Hd : lists (set_lists (λ h, h ++ [[]]) w) !! length (lists w) = Some [])
    by apply lookup_end.
  split; [exact Hd|].
  split; [apply (add_items_spec {| defaults_items := length (lists w) |} xs [] _ Hd)|].
  cbn [defaults_items].
  assert (Hd' : lists (set_lists (λ h, <[length (lists w) := [] ++ xs]> h)
                         (set_lists (λ h, h ++ [[]]) w))
                !! length (lists w) = Some xs).
  { fields. rewrite insert_end. apply lookup_end. }
  rewrite (add_item_default {| defaults_items := length (lists w) |} x xs _ Hd').
  split; [reflexivity|].
  cbn [returned_list]. fields.
  by rewrite list_insert_insert_eq, insert_end, lookup_end.
Qed.

(** The same, from any state in which the list of the defaults holds [xs]
    already: the calls add to what is there. *)
Lemma add_items_from_contents (fn : function) (xs items : list value) (w : world) :
  lists w !! defaults_items fn = Some xs →
  lists (exec (add_items fn items) w) !! defaults_items fn = Some (xs ++ items).
Proof.
  intros Hl. unfold exec. rewrite (add_items_spec _ _ _ _ Hl).
  cbn [snd set_lists lists]. apply list_lookup_insert_eq. by eapply lookup_lt_Some.
Qed.

(** The cell of the notebook, step by step.  The list of the defaults is
    the last list of the state when the cell follows the definition. *)
Lemma add_item_last (fn : function) (x : value) (h : list (list value))
    (xs : list value) c f n o :
  defaults_items fn = length h →
  add_item fn x None
    {| lists := h ++ [xs]; cells := c; funs := f; next_id := n; out := o |}
  = (Ok (VList (length h)),
     {| lists := h ++ [xs ++ [x]]; cells := c; funs := f; next_id := n; out := o |}).
Proof.
  destruct fn as [d]. cbn [defaults_items]. intros ->.
  erewrite add_item_default; [|apply lookup_end].
  fields. by rewrite insert_end.
Qed.

Lemma print_last (h : list (list value)) (xs : list value) c f n o :
  print (VList (length h))
    {| lists := h ++ [xs]; cells := c; funs := f; next_id := n; out := o |}
  = (Ok tt,
     {| lists := h ++ [xs]; cells := c; funs := f; next_id := n;
        out := o ++ [PList xs] |}).
Proof. run. by rewrite lookup_end. Qed.

Ltac cell_call :=
  first
    [ apply add_item_last; reflexivity
    | apply print_last
    | (erewrite bind_ok; [|cell_call]); cbv beta; cell_call ].
Ltac cell_step := (erewrite bind_ok; [|cell_call]); cbv beta.

Lemma add_item_cell_spec (h : list (list value)) c f n o :
  add_item_cell {| defaults_items := length h |}
    {| lists := h ++ [[]]; cells := c; funs := f; next_id := n; out := o |}
  = (Ok (VList (length h)),
     {| lists := h ++ [VInt <$> [1; 2; 3; 4; 5]]; cells := c; funs := f;
        next_id := n;
        out := o ++ [PList (VInt <$> [1; 2]); PList (VInt <$> [1; 2; 3]);
                     PList (VInt <$> [1; 2; 3; 4]); PList (VInt <$> [1; 2; 3; 4])] |}).
Proof.
  unfold add_item_cell. do 6 cell_step. unfold ret.
  by rewrite <-!app_assoc.
Qed.

(** C5.  Every call that omits [items] returns the one list of the
    defaults, so the reference an earlier call returned reads the items
    the later calls append: after [v = add_item(x)] and further calls with
    [ys], all return [v] and [v] reads [x] followed by [ys]; in the cell of
    the notebook, [v] reads [1, 2, 3, 4] after the calls with 2, 3 and 4. *)
Theorem add_item_shared_default (w : world) (x : value) (ys : list value) :
  (∃ fn w1 v w2 w3,
     def_add_item w = (Ok fn, w1)
     ∧ add_item fn x None w1 = (Ok (VList v), w2)
     ∧ add_items fn ys w2 = (Ok (replicate (length ys) (VList v)), w3)
     ∧ read_list v w2 = (Ok [x], w2)
     ∧ read_list v w3 = (Ok (x :: ys), w3))
  ∧ (∃ fn w1 v w2,
       def_add_item w = (Ok fn, w1)
       ∧ add_item_cell fn w1 = (Ok (VList v), w2)
       ∧ printed_by (add_item_cell fn) w1
         = [PList (VInt <$> [1; 2]); PList (VInt <$> [1; 2; 3]);
            PList (VInt <$> [1; 2; 3; 4]); PList (VInt <$> [1; 2; 3; 4])]
       ∧ lists w2 !! v = Some (VInt <$> [1; 2; 3; 4; 5])).
Proof.
  assert (Hd : lists (set_lists (λ h, h ++ [[]]) w) !! length (lists w) = Some [])
    by apply lookup_end.
  split.
  - eexists _, _, _, _, _. split; [apply def_add_item_spec|].
    split; [apply (add_item_default {| defaults_items := length (lists w) |} x [] _ Hd)|].
    cbn [defaults_items].
    assert (Hd' : lists (set_lists (λ h, <[length (lists w) := [] ++ [x]]> h)
                           (set_lists (λ h, h ++ [[]]) w))
                  !! length (lists w) = Some [x]).
    { cbn [set_lists lists]. rewrite insert_end. apply lookup_end. }
    split; [apply (add_items_spec {| defaults_items := length (lists w) |} ys [x] _ Hd')|].
    split.
    + run. rewrite insert_end, lookup_end. done.
    + run. rewrite list_insert_insert_eq, insert_end, lookup_end. done.
  - destruct w as [h c f n o]. eexists _, _, _, _.
    split; [apply def_add_item_spec|].
    unfold printed_by, exec. fields.
    rewrite add_item_cell_spec. cbn [snd lists out].
    split; [reflexivity|]. split; [apply drop_app_length | apply lookup_end].
Qed.

(** C7, as stated, fails when the list passed is the list of the defaults
    itself, which every call that omitted [items] has handed out:
    after [v = add_item(1)], the call [add_item(2, v)] passes [items]
    explicitly and changes the shared default from [1] to [1, 2]. *)
Lemma add_item_passed_its_default :
  let fn := {| defaults_items := 0 |} in
  let w0 := exec def_add_item empty_world in
  let w1 := exec (add_item fn (VInt 1) None) w0 in
  let w2 := exec (add_item fn (VInt 2) (Some (VList 0))) w1 in
  eval def_add_item empty_world = Ok fn
  ∧ eval (add_item fn (VInt 1) None) w0 = Ok (VList 0)
  ∧ lists w1 !! defaults_items fn = Some [VInt 1]
  ∧ eval (add_item fn (VInt 2) (Some (VList 0))) w1 = Ok (VList 0)
  ∧ lists w2 !! defaults_items fn = Some [VInt 1; VInt 2]
  ∧ lists w2 !! defaults_items fn ≠ lists w1 !! defaults_items fn.
Proof. vm_compute. repeat split; congruence. Qed.

(** C7, amended.  For every list [ys] passed as [items] and every item [x],
    [add_item(x, ys)] appends [x] to [ys] and returns that same list, and
    every other list is left unchanged: the shared default too, unless [ys]
    is the shared default. *)
Theorem add_item_explicit_frame (fn : function) (w : world) (x : value)
    (ys : loc) (xs : list value) :
  lists w !! ys = Some xs →
  let w' := exec (add_item fn x (Some (VList ys))) w in
  eval (add_item fn x (Some (VList ys))) w = Ok (VList ys)
  ∧ lists w' !! ys = Some (xs ++ [x])
  ∧ (∀ l, l ≠ ys → lists w' !! l = lists w !! l)
  ∧ (ys ≠ defaults_items fn →
     lists w' !! defaults_items fn = lists w !! defaults_items fn)
  ∧ cells w' = cells w ∧ funs w' = funs w ∧ out w' = out w.
Proof.
  intros Hl w'. subst w'. unfold eval, exec.
  rewrite (add_item_explicit fn x ys xs w Hl). fields.
  split; [done|]. split.
  { apply list_lookup_insert_eq. by eapply lookup_lt_Some. }
  split; [|split]; [| |done].
  - intros l Hne. by apply list_lookup_insert_ne.
  - intros Hne. by apply list_lookup_insert_ne.
Qed.

Lemma add_item_explicit_frame_witness :
  let fn := {| defaults_items := 0 |} in
  let w := {| lists := [[VInt 1]; [VInt 7]]; cells := []; funs := [];
              next_id := 0; out := [] |} in
  let w' := exec (add_item fn (VInt 8) (Some (VList 1))) w in
  lists w !! 1%nat = Some [VInt 7]
  ∧ lists w' !! 1%nat = Some [VInt 7; VInt 8]
  ∧ lists w' !! defaults_items fn = lists w !! defaults_items fn.
Proof.
  intros fn w w'.
  assert (Hl : lists w !! 1%nat = Some [VInt 7]) by reflexivity.
  split; [exact Hl|].
  destruct (add_item_explicit_frame fn w (VInt 8) 1 [VInt 7] Hl)
    as (_ & Hys & _ & Hd & _).
  split; [exact Hys|]. apply Hd. vm_compute. lia.
Defined.

(** ** something *)

(** The code object of [something] has two integer constants: the cached
    object of 10, and one object for 123456, made when the body is
    compiled and shared by the three occurrences of the literal. *)
Lemma def_something_spec (w : world) :
  def_something w
  = (Ok {| co_consts := [{| ob_id := SmallInt 10; ob_val := 10 |};
                         {| ob_id := Alloc (next_id w); ob_val := 123456 |}] |},
     set_next_id Datatypes.S w).
Proof. reflexivity. Qed.

Lemma load_const_hit (co : code) (n : Z) (o : pyint) (w : world) :
  find_const (co_consts co) n = Some o → load_const co n w = (Ok o, w).
Proof. unfold load_const. by intros ->. Qed.

(** Two evaluations of one literal in one code object load one object. *)
Lemma load_const_same_object (co : code) (n : Z) (a k : pyint) (w w' : world) :
  load_const co n w = (Ok a, w) → load_const co n w' = (Ok k, w') →
  py_is a k = true ∧ py_eq a k = true.
Proof.
  unfold load_const. destruct (find_const (co_consts co) n) as [o|]; [|done].
  unfold ret. intros [= <-] [= <-]. unfold py_is, py_eq.
  by rewrite !bool_decide_eq_true.
Qed.

(** What [something] prints depends on its code object alone, and printing
    is all it does. *)
Lemma something_exec (co : code) (w : world) :
  exec (something co) w = set_out (λ o, o ++ lines_of co) w.
Proof.
  unfold something, lines_of, load_const.
  destruct (find_const (co_consts co) 10) as [a|];
    [destruct (find_const (co_consts co) 123456) as [c|]|];
    run; apply world_eq; cbn [lists cells funs next_id out];
    rewrite <-?app_assoc, ?app_nil_r; done.
Qed.

Lemma something_printed (co : code) (w : world) :
  printed_by (something co) w = lines_of co.
Proof.
  unfold printed_by. rewrite something_exec. fields. apply drop_app_length.
Qed.

Lemma py_is_refl (a : pyint) : py_is a a = true.
Proof. unfold py_is. by rewrite bool_decide_eq_true. Qed.

Lemma py_eq_refl (a : pyint) : py_eq a a = true.
Proof. unfold py_eq. by rewrite bool_decide_eq_true. Qed.

(** With both literals among its constants, a code object of this body
    prints [True] on each of the four lines. *)
Lemma lines_of_complete (co : code) (a c : pyint) :
  find_const (co_consts co) 10 = Some a →
  find_const (co_consts co) 123456 = Some c →
  lines_of co
  = [PVal (VBool true); PVal (VBool true); PVal (VBool true); PVal (VBool true)].
Proof.
  intros Ha Hc. unfold lines_of. rewrite Ha, Hc.
  by rewrite !py_is_refl, !py_eq_refl.
Qed.

(** The cell, run from the start of a session, prints [True] four times
    and no [False]: [c] and the literal it is compared with are one constant
    of the code object of [something]. *)
Lemma something_prints_no_False :
  printed_by something_cell empty_world
  = [PVal (VBool true); PVal (VBool true); PVal (VBool true); PVal (VBool true)]
  ∧ printed_by something_cell empty_world
    ≠ [PVal (VBool true); PVal (VBool true); PVal (VBool true); PVal (VBool false)].
Proof. split; [reflexivity | vm_compute; congruence]. Qed.

(** C3.  What [something] does, against what the demonstration is meant to
    show (identity and equality agree on the cached 10 and differ on
    123456): after [a = 10] both [a == 10] and [a is 10] are [True], and
    after [c = 123456] both [c == 123456] and [c is 123456] are [True].
    Whatever the state the function is defined in, the call succeeds and
    prints [True] four times, and nothing else. *)
Theorem something_prints_True (w : world) :
  ∃ co w1,
    def_something w = (Ok co, w1)
    ∧ eval (something co) w1 = Ok VNone
    ∧ printed_by (something co) w1
      = [PVal (VBool true); PVal (VBool true); PVal (VBool true); PVal (VBool true)]
    ∧ exec (something co) w1
      = set_out (λ o, o ++ [PVal (VBool true); PVal (VBool true);
                            PVal (VBool true); PVal (VBool true)]) w1.
Proof.
  eexists _, _. split; [apply def_something_spec|].
  split; [reflexivity|]. split.
  - rewrite something_printed. by eapply lines_of_complete.
  - rewrite something_exec. by erewrite lines_of_complete.
Qed.

(** Where the cache does show: the bodies of two separately compiled
    functions share the object of 10, and have each their own object for
    123456, equal and not identical. *)
Lemma int_cache_across_code_objects (w : world) :
  eval (co1 <- def_something ;;
        co2 <- def_something ;;
        a1 <- load_const co1 10 ;;
        a2 <- load_const co2 10 ;;
        c1 <- load_const co1 123456 ;;
        c2 <- load_const co2 123456 ;;
        ret [py_eq a1 a2; py_is a1 a2; py_eq c1 c2; py_is c1 c2]) w
  = Ok [true; true; true; false].
Proof.
  unfold eval, bind. rewrite !def_something_spec.
  cbn [set_next_id next_id].
  repeat (erewrite load_const_hit by reflexivity).
  unfold ret, py_eq, py_is. cbn [fst ob_id ob_val].
  rewrite !bool_decide_eq_true_2 by done.
  rewrite bool_decide_eq_false_2; [done|]. intros [=]. lia.
Qed.

(** ** The session *)

(** *** What each call leaves alone *)

Lemma set_lists_nil (w : world) : set_lists (λ h, h ++ []) w = w.
Proof. apply world_eq; fields; try done. apply app_nil_r. Qed.

(** Multiplying allocates at most one new list. *)
Lemma seq_repeat_frame (n : Z) (s : value) (w : world) :
  ∃ new, exec (seq_repeat n s) w = set_lists (λ h, h ++ new) w.
Proof.
  destruct s; try (exists []; by rewrite set_lists_nil).
  unfold seq_repeat. run. destruct (lists w !! l) as [xs|].
  - by eexists [_].
  - exists []. apply world_eq; fields; try done. by rewrite app_nil_r.
Qed.

Lemma py_mul_frame (a b : value) (w : world) :
  ∃ new, exec (py_mul a b) w = set_lists (λ h, h ++ new) w.
Proof.
  unfold py_mul. destruct (as_int a), (as_int b);
    try apply seq_repeat_frame; exists []; by rewrite set_lists_nil.
Qed.

Lemma call_frame (f x : value) (w : world) :
  ∃ new, exec (call f x) w = set_lists (λ h, h ++ new) w.
Proof.
  destruct f; try (exists []; by rewrite set_lists_nil).
  unfold call, multiplier, exec, bind, gets. cbn [fst snd].
  destruct (funs w !! f) as [[c]|]; [|exists []; by rewrite set_lists_nil].
  unfold load_deref, bind, gets. cbn [cl_cell].
  destruct (cells w !! c) as [[v|]|]; try (exists []; by rewrite set_lists_nil).
  apply py_mul_frame.
Qed.

(** [add_item] changes at most the list it appends to. *)
Lemma add_item_frame (fn : function) (x : value) (items : option value) (w : world) :
  let w' := exec (add_item fn x items) w in
  cells w' = cells w ∧ funs w' = funs w ∧ out w' = out w
  ∧ next_id w' = next_id w ∧ length (lists w') = length (lists w).
Proof.
  unfold add_item. destruct (default (VList (defaults_items fn)) items) as [| | | |l|];
    try done.
  unfold list_append. run. destruct (lists w !! l) as [xs|]; [|done].
  cbn [fst snd lists cells funs next_id out]. by rewrite length_insert.
Qed.

(** One call, seen from a list that exists before it: the list gains what
    the call appends to it, and nothing else. *)
Lemma invoke_lists (ss : session) (c : invocation) (w : world) (d : loc)
    (xs : list value) :
  lists w !! d = Some xs →
  lists (exec (invoke ss c) w) !! d = Some (xs ++ appends_to ss d c).
Proof.
  intros Hd. destruct c as [item items| | |f x]; cbn [invoke appends_to].
  - unfold add_item, target.
    destruct (default (VList (defaults_items (s_add_item ss))) items)
      as [| | | |l|] eqn:Ht;
      try (rewrite decide_False by done; by rewrite app_nil_r).
    destruct (lists w !! l) as [ys|] eqn:Hl.
    + unfold exec. rewrite (bind_ok _ _ _ _ _ (list_append_ok l ys item w Hl)).
      fields. destruct (decide (l = d)) as [->|Hne].
      * rewrite decide_True by done. rewrite Hd in Hl. injection Hl as <-.
        apply list_lookup_insert_eq. by eapply lookup_lt_Some.
      * rewrite decide_False by congruence.
        rewrite list_lookup_insert_ne by done. by rewrite app_nil_r.
    + unfold exec. rewrite (bind_raise _ _ _ _ _ (list_append_dangling l item w Hl)).
      cbn [snd]. rewrite decide_False by congruence. by rewrite app_nil_r.
  - unfold exec. rewrite times_table_spec. fields.
    rewrite lookup_app_l by (by eapply lookup_lt_Some). by rewrite app_nil_r.
  - rewrite something_exec. fields. by rewrite app_nil_r.
  - destruct (call_frame f x w) as [new ->]. fields.
    rewrite lookup_app_l by (by eapply lookup_lt_Some). by rewrite app_nil_r.
Qed.

(** One call leaves every function object and every cell as it was. *)
Lemma invoke_closures (ss : session) (c : invocation) (w : world) :
  funs w `prefix_of` funs (exec (invoke ss c) w)
  ∧ cells w `prefix_of` cells (exec (invoke ss c) w).
Proof.
  destruct c as [item items| | |f x]; cbn [invoke].
  - destruct (add_item_frame (s_add_item ss) item items w) as (-> & -> & _). done.
  - unfold exec. rewrite times_table_spec. fields.
    split; by apply prefix_app_r.
  - by rewrite something_exec.
  - by destruct (call_frame f x w) as [new ->].
Qed.

(** *** Any number of calls, in any order *)

Lemma run_session_lists (ss : session) (cs : list invocation) (w : world)
    (d : loc) (xs : list value) :
  lists w !! d = Some xs →
  lists (run_session ss cs w) !! d = Some (xs ++ (cs ≫= appends_to ss d)).
Proof.
  revert w xs. induction cs as [|c cs IH]; intros w xs Hd; cbn [run_session].
  - by rewrite app_nil_r.
  - rewrite (IH _ _ (invoke_lists ss c w d xs Hd)).
    by rewrite <-app_assoc.
Qed.

Lemma run_session_closures (ss : session) (cs : list invocation) (w : world) :
  funs w `prefix_of` funs (run_session ss cs w)
  ∧ cells w `prefix_of` cells (run_session ss cs w).
Proof.
  revert w. induction cs as [|c cs IH]; intros w; cbn [run_session]; [done|].
  destruct (invoke_closures ss c w) as [Hf Hc].
  destruct (IH (exec (invoke ss c) w)) as [Hf' Hc'].
  split; by etrans.
Qed.

(** Only the calls of [add_item] append anything. *)
Lemma appends_to_filter (ss : session) (d : loc) (cs : list invocation) :
  cs ≫= appends_to ss d = filter is_add_item cs ≫= appends_to ss d.
Proof.
  induction cs as [|c cs IH]; [done|].
  destruct c; cbn [mbind list_bind app]; rewrite ?filter_cons; cbn [is_add_item];
    try (rewrite decide_False by (by intros []); by rewrite IH).
  rewrite decide_True by done. cbn [mbind list_bind]. by rewrite IH.
Qed.

(** C9.  The three demonstrations share no state.  Whatever calls of
    [add_item] (in either form), [times_table], [something] and the closures
    are made, in whatever order: the closures of an earlier [times_table]
    still multiply by 9; [something] prints what it printed before; and
    the list of the defaults of [add_item] holds what it held, followed by
    the items of the [add_item] calls that appended to it, so that two
    runs with the same [add_item] calls leave the same list whatever their
    other calls. *)
Theorem demonstrations_share_no_state (ss : session) (w : world)
    (cs cs' : list invocation) (xs : list value) (x : value) :
  let d := defaults_items (s_add_item ss) in
  lists w !! d = Some xs →
  Forall (λ f, let w2 := run_session ss cs (exec times_table w) in
               call f x w2 = py_mul (VInt 9) x w2)
         (returned_list (times_table w))
  ∧ printed_by (something (s_something ss)) (run_session ss cs w)
    = printed_by (something (s_something ss)) w
  ∧ lists (run_session ss cs w) !! d
    = Some (xs ++ (filter is_add_item cs ≫= appends_to ss d))
  ∧ (filter is_add_item cs = filter is_add_item cs' →
     lists (run_session ss cs w) !! d = lists (run_session ss cs' w) !! d).
Proof.
  intros d Hd. split; [|split; [|split]].
  - apply Forall_forall. intros f Hf w2.
    destruct (run_session_closures ss cs (exec times_table w)) as [Hfuns Hcells].
    destruct (times_table_one_cell w w2 f Hf Hfuns) as (k & -> & Hk).
    rewrite (call_VFun _ _ _ _ Hk). apply multiplier_bound.
    eapply prefix_lookup_Some; [|exact Hcells].
    unfold exec. rewrite times_table_spec. fields. apply lookup_end.
  - by rewrite !something_printed.
  - rewrite (run_session_lists ss cs w d xs Hd). by rewrite appends_to_filter.
  - intros Hsame.
    rewrite (run_session_lists ss cs w d xs Hd), (run_session_lists ss cs' w d xs Hd).
    by rewrite (appends_to_filter ss d cs), (appends_to_filter ss d cs'), Hsame.
Qed.

Lemma demonstrations_share_no_state_witness :
  let ss := {| s_add_item := {| defaults_items := 0 |};
               s_something :=
                 {| co_consts := [{| ob_id := SmallInt 10; ob_val := 10 |};
                                  {| ob_id := Alloc 0; ob_val := 123456 |}] |} |} in
  let w := exec start_session empty_world in
  let cs := [AddItem (VInt 1) None; TimesTable; Something;
             AddItem (VInt 2) (Some (VList 1)); Call (VFun 3) (VInt 5);
             AddItem (VInt 3) None] in
  let cs' := [AddItem (VInt 1) None; AddItem (VInt 2) (Some (VList 1));
              AddItem (VInt 3) None] in
  eval start_session empty_world = Ok ss
  ∧ lists w !! defaults_items (s_add_item ss) = Some []
  ∧ lists (run_session ss cs w) !! 0%nat = Some [VInt 1; VInt 3]
  ∧ lists (run_session ss cs w) !! 0%nat = lists (run_session ss cs' w) !! 0%nat.
Proof.
  intros ss w cs cs'.
  assert (Hd : lists w !! defaults_items (s_add_item ss) = Some []) by reflexivity.
  split; [reflexivity|]. split; [exact Hd|].
  destruct (demonstrations_share_no_state ss w cs cs' [] (VInt 5) Hd)
    as (_ & _ & Hlist & Hsame).
  split; [exact Hlist|]. apply Hsame. reflexivity.
Defined.

(** ** transform_image *)

Section blur_facts.
Context `{Imaging}.
Implicit Types (s : Blur.state) (image : ndarray).

Lemma SIGMAS_eq : Blur.SIGMAS = [1; 2; 3; 4; 5; 6; 7; 8; 9].
Proof. reflexivity. Qed.

(** The loop of the comprehension: one closure over the cell [sigma] for
    every element, and the cell holds the last element. *)
Lemma blur_comprehension (sigma : nat) (vs : list Z) s :
  Blur.list_comp vs (λ v, Blur.store_deref sigma v ;; ret (Blur.blur sigma)) s
  = (Ok (replicate (length vs) (Blur.blur sigma)),
     {| Blur.sigma_cells :=
          from_option (λ v, <[sigma := Some v]> (Blur.sigma_cells s))
                      (Blur.sigma_cells s) (last vs);
        Blur.rng := Blur.rng s;
        Blur.displayed := Blur.displayed s |}).
Proof.
  revert s. induction vs as [|v vs IH]; intros s.
  - by destruct s.
  - cbn [Blur.list_comp].
    erewrite bind_ok by reflexivity. erewrite bind_ok by apply IH.
    unfold ret. cbn [length replicate Blur.sigma_cells Blur.rng Blur.displayed].
    do 2 f_equal. destruct vs as [|v' vs]; [done|].
    rewrite last_cons_cons. destruct (last (v' :: vs)) eqn:Hlast; cbn [from_option].
    + by rewrite list_insert_insert_eq.
    + by apply last_None in Hlast.
Qed.

Lemma blur_operations_spec s :
  Blur.blur_operations s
  = (Ok (replicate 9 (Blur.blur (length (Blur.sigma_cells s)))),
     {| Blur.sigma_cells := Blur.sigma_cells s ++ [Some 9];
        Blur.rng := Blur.rng s;
        Blur.displayed := Blur.displayed s |}).
Proof.
  unfold Blur.blur_operations. rewrite SIGMAS_eq.
  erewrite bind_ok by reflexivity. rewrite blur_comprehension.
  cbn [length last from_option Blur.sigma_cells Blur.rng Blur.displayed].
  by rewrite insert_end.
Qed.

(** A blur closure reads [sigma] when it is called. *)
Lemma blur_bound (sigma : nat) (v : Z) image s :
  Blur.sigma_cells s !! sigma = Some (Some v) →
  Blur.blur sigma image s = (Ok (gaussian_filter image (v + 1)), s).
Proof.
  intros Hc. unfold Blur.blur, Blur.load_deref, bind, gets, ret. by rewrite Hc.
Qed.

(** C4.  The lambdas of the comprehension in [transform_image] close over
    the variable [sigma], not over the value it has when each is made:
    the comprehension gives nine functions, and in the state it leaves each
    of them applies [gaussian_filter] with sigma 10, the last element of
    [SIGMAS] plus 1, whatever the image; so all nine give the same output. *)
Theorem blur_operations_all_sigma_10 s :
  ∃ ops s',
    Blur.blur_operations s = (Ok ops, s')
    ∧ length ops = 9%nat
    ∧ Forall (λ op, ∀ image, op image s' = (Ok (gaussian_filter image 10), s')) ops
    ∧ Forall (λ op, Forall (λ op', ∀ image, op image s' = op' image s') ops) ops.
Proof.
  eexists _, _. split; [apply blur_operations_spec|].
  assert (Hop : ∀ op, op ∈ replicate 9 (Blur.blur (length (Blur.sigma_cells s))) →
                ∀ image,
                  op image {| Blur.sigma_cells := Blur.sigma_cells s ++ [Some 9];
                              Blur.rng := Blur.rng s;
                              Blur.displayed := Blur.displayed s |}
                  = (Ok (gaussian_filter image 10),
                     {| Blur.sigma_cells := Blur.sigma_cells s ++ [Some 9];
                        Blur.rng := Blur.rng s;
                        Blur.displayed := Blur.displayed s |})).
  { intros op [-> _]%elem_of_replicate image.
    apply (blur_bound _ 9). cbn [Blur.sigma_cells]. apply lookup_end. }
  split; [done|]. split.
  - apply Forall_forall. exact Hop.
  - apply Forall_forall. intros op Hin. apply Forall_forall. intros op' Hin' image.
    by rewrite (Hop op Hin), (Hop op' Hin').
Qed.

(** X13.  [transform_image] on a file that opens: the call succeeds, draws
    noise once, and displays one image after those displayed before: the
    grey-scale image divided by 255, with the noise added and clipped to
    0..1, blurred nine times with sigma 10, scaled by 255, clipped to
    0..255 and cast to bytes. *)
Lemma transform_image_spec (image_path : string) (img : pil_image) s :
  Image_open image_path = Ok img →
  let image_np := np_array (Image_convert img "L") in
  let noise := np_random_normal 0 float_0_1 (np_shape (np_divide image_np 255)) (Blur.rng s) in
  let noisy := np_clip (np_add (np_divide image_np 255) noise.1) 0 1 in
  let blurred := Nat.iter 9 (λ a, gaussian_filter a 10) noisy in
  Blur.transform_image image_path s
  = (Ok tt,
     {| Blur.sigma_cells := Blur.sigma_cells s ++ [Some 9];
        Blur.rng := noise.2;
        Blur.displayed :=
          Blur.displayed s
          ++ [Image_fromarray
                (np_astype_uint8 (np_clip (np_multiply blurred 255) 0 255))] |}).
Proof.
  intros Hopen image_np noise noisy blurred.
  unfold Blur.transform_image. rewrite Hopen.
  erewrite bind_ok by reflexivity.
  cbv zeta. erewrite bind_ok by apply blur_operations_spec.
  cbn [replicate app Pipeline.create_pipeline Pipeline.pipeline].
  erewrite bind_ok.
  2: { erewrite bind_ok by reflexivity.
       erewrite bind_ok.
       2: { unfold Blur.add_noise. erewrite bind_ok by reflexivity. reflexivity. }
       cbn [Blur.sigma_cells Blur.rng Blur.displayed]. fold image_np noise noisy.
       do 9 (erewrite bind_ok by (apply (blur_bound _ 9); apply lookup_end)).
       reflexivity. }
  reflexivity.
Qed.

(** C10.  [transform_image] handles no error: when opening the file raises,
    the call raises that exception, and nothing after the opening is done:
    the state is as it was, with nothing displayed, no noise drawn and no
    closure made. *)
Theorem transform_image_open_fails (image_path : string) (e : exn) s :
  Image_open image_path = Raise e →
  Blur.transform_image image_path s = (Raise e, s).
Proof.
  intros Hopen. unfold Blur.transform_image.
  apply bind_raise. unfold Blur.of_outcome. by rewrite Hopen.
Qed.
End blur_facts.

Lemma transform_image_open_fails_witness :
  @Image_open toy_imaging "./missing.png" = Raise FileNotFoundError
  ∧ @Blur.transform_image toy_imaging "./missing.png"
      (@Blur.Build_state toy_imaging [] 0 [])
    = (Raise FileNotFoundError, @Blur.Build_state toy_imaging [] 0 []).
Proof.
  assert (Hopen : @Image_open toy_imaging "./missing.png" = Raise FileNotFoundError)
    by reflexivity.
  split; [exact Hopen|].
  apply (@transform_image_open_fails toy_imaging _ _ _ Hopen).
Defined.

(** On the small instance: the file opens, one noise is drawn, the nine
    closures share one cell, which holds 9, and one image is displayed. *)
Example transform_image_toy :
  @Blur.transform_image toy_imaging "./image.png"
    (@Blur.Build_state toy_imaging [] 0 [])
  = (Ok tt, @Blur.Build_state toy_imaging [Some 9] 1 [255 `mod` 256]).
Proof. reflexivity. Qed.

(** * Further properties of the notebook's functions *)

(** ** The pipeline *)

Section pipeline_laws.
Context {S D : Type}.
Implicit Types (fs gs : list (D → M S D)) (x y : D) (s : S).

(** X1.  A pipeline over [fs] followed by [gs] is the pipeline over [fs]
    followed by the pipeline over [gs]: the second starts from the value
    and the state the first ends with, and is not run when the first
    raises. *)
Theorem create_pipeline_app fs gs x s :
  Pipeline.create_pipeline (fs ++ gs) x s
  = match Pipeline.create_pipeline fs x s with
    | (Ok y, s') => Pipeline.create_pipeline gs y s'
    | (Raise e, s') => (Raise e, s')
    end.
Proof. unfold Pipeline.create_pipeline. by rewrite pipeline_app. Qed.

(** X2.  The first operation that raises ends the pipeline: the pipeline
    raises that exception, in the state that operation left, and none of
    the operations after it is applied, whatever they are. *)
Theorem create_pipeline_stops_at_raise fs gs (f : D → M S D) x y s s1 s2 (e : exn) :
  Pipeline.create_pipeline fs x s = (Ok y, s1) →
  f y s1 = (Raise e, s2) →
  Pipeline.create_pipeline (fs ++ f :: gs) x s = (Raise e, s2).
Proof.
  unfold Pipeline.create_pipeline. intros Hfs Hf.
  rewrite pipeline_app. rewrite (bind_ok _ _ _ _ _ Hfs).
  cbn [Pipeline.pipeline]. by apply bind_raise.
Qed.
End pipeline_laws.

Lemma create_pipeline_stops_at_raise_witness :
  Pipeline.create_pipeline [λ d : Z, ret (d + 1)] 4 tt = (Ok 5, tt)
  ∧ Pipeline.create_pipeline
      ([λ d : Z, ret (d + 1)] ++ (λ _, raise TypeError) :: [λ d : Z, ret (d * 10)])
      4 tt
    = (Raise TypeError, tt).
Proof.
  assert (Hfs : Pipeline.create_pipeline [λ d : Z, ret (d + 1)] 4 tt = (Ok 5, tt))
    by reflexivity.
  split; [exact Hfs|].
  apply (create_pipeline_stops_at_raise
           [λ d : Z, ret (d + 1)] [λ d : Z, ret (d * 10)]
           (λ _, raise TypeError) 4 5 tt tt tt TypeError Hfs).
  reflexivity.
Defined.

(** ** times_table and its closures *)

Lemma call_each_all (fs : list value) (x y : value) (w : world) :
  Forall (λ f, call f x w = (Ok y, w)) fs →
  call_each fs x w = (Ok (replicate (length fs) y), w).
Proof.
  induction 1 as [|f fs Hf _ IH]; [done|].
  cbn [call_each]. rewrite (bind_ok _ _ _ _ _ Hf), (bind_ok _ _ _ _ _ IH). done.
Qed.

Lemma times_table_nine (w : world) (f : value) :
  f ∈ returned_list (times_table w) →
  ∃ k, f = VFun k
       ∧ funs (exec times_table w) !! k = Some {| cl_cell := length (cells w) |}
       ∧ cells (exec times_table w) !! length (cells w) = Some (Some (VInt 9)).
Proof.
  intros Hf. destruct (times_table_one_cell w (exec times_table w) f Hf)
    as (k & -> & Hk); [done|].
  exists k. split; [done|]. split; [done|].
  unfold exec. rewrite times_table_spec. fields. apply lookup_end.
Qed.

(** X4.  The cell [[f(n) for f in times_table()]]: for every integer [n],
    in every state, it succeeds with ten copies of [9 * n].  That is the
    table of the docstring, [[0 * n, ..., 9 * n]], for [n = 0] only. *)
Theorem times_table_cell_result (w : world) (n : Z) :
  times_table_cell (VInt n) w
  = (Ok (replicate 10 (VInt (9 * n))), exec times_table w)
  ∧ (replicate 10 (VInt (9 * n)) = docstring_table n ↔ n = 0).
Proof.
  split.
  - unfold times_table_cell.
    assert (Hrun : times_table w = (Ok (VList (length (lists w))), exec times_table w)).
    { unfold exec. by rewrite times_table_spec. }
    rewrite (bind_ok _ _ _ _ _ Hrun). cbv beta iota.
    assert (Hread : read_list (length (lists w)) (exec times_table w)
                    = (Ok (returned_list (times_table w)), exec times_table w)).
    { rewrite returned_list_times_table. unfold exec. rewrite times_table_spec.
      run. by rewrite lookup_end. }
    rewrite (bind_ok _ _ _ _ _ Hread).
    rewrite (call_each_all _ _ (VInt (9 * n))).
    + by rewrite returned_list_times_table, length_fmap, length_seq.
    + apply Forall_forall. intros f Hf.
      destruct (times_table_nine w f Hf) as (k & -> & Hk & Hc).
      by rewrite (call_VFun _ _ _ _ Hk), (multiplier_bound _ _ _ _ Hc).
  - unfold docstring_table.
    change (range 0 10) with [0; 1; 2; 3; 4; 5; 6; 7; 8; 9].
    cbn [replicate fmap list_fmap]. split.
    + intros [= H0 _]. lia.
    + intros ->. reflexivity.
Qed.

(** X5.  A call of [times_table] succeeds in every state and allocates
    one list (the table, which it returns), one cell, left holding 9, and
    ten function objects, pairwise distinct; it prints nothing and changes
    no list, cell or function object that was there before. *)
Theorem times_table_allocates (w : world) :
  let w' := exec times_table w in
  eval times_table w = Ok (VList (length (lists w)))
  ∧ lists w' = lists w ++ [returned_list (times_table w)]
  ∧ NoDup (returned_list (times_table w))
  ∧ cells w' = cells w ++ [Some (VInt 9)]
  ∧ funs w `prefix_of` funs w'
  ∧ length (funs w') = (length (funs w) + 10)%nat
  ∧ out w' = out w ∧ next_id w' = next_id w.
Proof.
  intros w'. subst w'. rewrite returned_list_times_table.
  unfold eval, exec. rewrite times_table_spec. fields.
  split; [done|]. split; [done|]. split.
  { apply NoDup_fmap_2; [by intros ?? [= ->] | apply NoDup_seq]. }
  split; [done|]. split; [by apply prefix_app_r|].
  split; [|done]. by rewrite length_app, length_replicate.
Qed.



(** X7.  What a closure of [times_table] does with an argument that is not
    an integer: a string is repeated nine times, a boolean counts as 0 or
    1, [None] and functions raise [TypeError] and leave the state as it
    was, and a list gives a new list, its elements nine times over, while
    the argument itself is not changed. *)
Theorem times_table_closures_on_other_values (w : world) (f : value) :
  f ∈ returned_list (times_table w) →
  let w' := exec times_table w in
  (∀ s, call f (VStr s) w' = (Ok (VStr (str_repeat 9 s)), w'))
  ∧ (∀ b, call f (VBool b) w' = (Ok (VInt (9 * Z.b2z b)), w'))
  ∧ call f VNone w' = (Raise TypeError, w')
  ∧ (∀ g, call f (VFun g) w' = (Raise TypeError, w'))
  ∧ (∀ l xs, lists w' !! l = Some xs →
       call f (VList l) w'
       = (Ok (VList (length (lists w'))),
          set_lists (λ h, h ++ [mjoin (replicate 9 xs)]) w')).
Proof.
  intros Hf w'.
  destruct (times_table_nine w f Hf) as (k & -> & Hk & Hc). fold w' in Hk, Hc.
  assert (Hcall : ∀ x, call (VFun k) x w' = py_mul (VInt 9) x w').
  { intros x. by rewrite (call_VFun _ _ _ _ Hk), (multiplier_bound _ _ _ _ Hc). }
  repeat split; intros; rewrite Hcall; try reflexivity.
  unfold py_mul, seq_repeat. cbn [as_int]. run.
  by match goal with H : lists w' !! _ = Some _ |- _ => rewrite H end.
Qed.

Lemma times_table_closures_on_other_values_witness :
  VFun 0 ∈ returned_list (times_table empty_world)
  ∧ call (VFun 0) (VStr "ab") (exec times_table empty_world)
    = (Ok (VStr "ababababababababab"), exec times_table empty_world)
  ∧ call (VFun 0) VNone (exec times_table empty_world)
    = (Raise TypeError, exec times_table empty_world).
Proof.
  assert (H0 : VFun 0 ∈ returned_list (times_table empty_world))
    by (vm_compute; apply list_elem_of_here).
  split; [exact H0|].
  destruct (times_table_closures_on_other_values empty_world (VFun 0) H0)
    as (Hstr & _ & Hnone & _).
  split; [exact (Hstr "ab"%string) | exact Hnone].
Defined.

(** ** add_item *)



Lemma add_item_at (fn : function) (x : value) (h : list (list value))
    (xs : list value) c f n o :
  (defaults_items fn < length h)%nat →
  add_item fn x None
    {| lists := <[defaults_items fn := xs]> h; cells := c; funs := f;
       next_id := n; out := o |}
  = (Ok (VList (defaults_items fn)),
     {| lists := <[defaults_items fn := xs ++ [x]]> h; cells := c; funs := f;
        next_id := n; out := o |}).
Proof.
  intros Hlt. erewrite add_item_default.
  2: { cbn [lists]. by apply list_lookup_insert_eq. }
  fields. by rewrite list_insert_insert_eq.
Qed.

Lemma print_at (d : loc) (h : list (list value)) (xs : list value) c f n o :
  (d < length h)%nat →
  print (VList d)
    {| lists := <[d := xs]> h; cells := c; funs := f; next_id := n; out := o |}
  = (Ok tt,
     {| lists := <[d := xs]> h; cells := c; funs := f; next_id := n;
        out := o ++ [PList xs] |}).
Proof. intros Hlt. run. by rewrite list_lookup_insert_eq. Qed.

Ltac at_call Hlt :=
  first
    [ apply add_item_at; exact Hlt
    | apply print_at; exact Hlt
    | (erewrite bind_ok; [|at_call Hlt]); cbv beta; at_call Hlt ].
Ltac at_step Hlt := (erewrite bind_ok; [|at_call Hlt]); cbv beta.

(** X9.  The cell of the notebook is not repeatable: run when the list of
    the defaults holds [xs] already (as it does when the cell is run
    again), it prints [xs] followed by [1, 2], by [1, 2, 3], and twice by
    [1, 2, 3, 4], and leaves the list holding [xs] followed by
    [1, 2, 3, 4, 5]; [v] is that list. *)
Theorem add_item_cell_from (fn : function) (w : world) (xs : list value) :
  lists w !! defaults_items fn = Some xs →
  add_item_cell fn w
  = (Ok (VList (defaults_items fn)),
     set_out (λ o, o ++ [PList (xs ++ (VInt <$> [1; 2]));
                         PList (xs ++ (VInt <$> [1; 2; 3]));
                         PList (xs ++ (VInt <$> [1; 2; 3; 4]));
                         PList (xs ++ (VInt <$> [1; 2; 3; 4]))])
       (set_lists (λ h, <[defaults_items fn := xs ++ (VInt <$> [1; 2; 3; 4; 5])]> h) w)).
Proof.
  intros Hd. destruct w as [h c f n o]. cbn [lists] in Hd.
  assert (Hlt : (defaults_items fn < length h)%nat) by (by eapply lookup_lt_Some).
  rewrite <-(list_insert_id h _ _ Hd) at 1.
  unfold add_item_cell. do 6 at_step Hlt. fields.
  by rewrite <-!app_assoc.
Qed.

Lemma add_item_cell_from_witness :
  let fn := {| defaults_items := 0 |} in
  let w := exec (add_item_cell fn) (exec def_add_item empty_world) in
  lists w !! defaults_items fn = Some (VInt <$> [1; 2; 3; 4; 5])
  ∧ printed_by (add_item_cell fn) w
    = [PList (VInt <$> [1; 2; 3; 4; 5; 1; 2]);
       PList (VInt <$> [1; 2; 3; 4; 5; 1; 2; 3]);
       PList (VInt <$> [1; 2; 3; 4; 5; 1; 2; 3; 4]);
       PList (VInt <$> [1; 2; 3; 4; 5; 1; 2; 3; 4])].
Proof.
  intros fn w.
  assert (Hd : lists w !! defaults_items fn = Some (VInt <$> [1; 2; 3; 4; 5]))
    by reflexivity.
  split; [exact Hd|].
  unfold printed_by, exec at 1.
  rewrite (add_item_cell_from fn w _ Hd). reflexivity.
Defined.

(** X10.  Passing a list made for the call, [add_item(x, [])], gives a new
    list that holds [x] alone, whatever earlier calls have left in the
    list of the defaults, and changes no list that exists. *)
Theorem add_item_new_list (fn : function) (x : value) (w : world) :
  (ys <- new_list [] ;; add_item fn x (Some (VList ys))) w
  = (Ok (VList (length (lists w))), set_lists (λ h, h ++ [[x]]) w).
Proof.
  erewrite bind_ok by reflexivity.
  erewrite add_item_explicit by apply lookup_end.
  f_equal. apply world_eq; fields; try done. apply insert_end.
Qed.

(** X11.  Executing [def add_item] again makes a function with a list of
    defaults of its own: it starts empty, the list of the earlier function
    keeps what it holds, and calls of the new function that omit [items]
    fill the new list and leave the earlier one as it is. *)
Theorem def_add_item_again (w : world) (xs ys : list value) :
  ∃ fn1 w1 fn2 w3,
    def_add_item w = (Ok fn1, w1)
    ∧ def_add_item (exec (add_items fn1 xs) w1) = (Ok fn2, w3)
    ∧ defaults_items fn2 ≠ defaults_items fn1
    ∧ lists w3 !! defaults_items fn1 = Some xs
    ∧ lists w3 !! defaults_items fn2 = Some []
    ∧ lists (exec (add_items fn2 ys) w3) !! defaults_items fn1 = Some xs
    ∧ lists (exec (add_items fn2 ys) w3) !! defaults_items fn2 = Some ys.
Proof.
  eexists _, _, _, _. split; [apply def_add_item_spec|].
  split; [apply def_add_item_spec|].
  assert (Hd : lists (set_lists (λ h, h ++ [[]]) w) !! length (lists w) = Some [])
    by apply lookup_end.
  unfold exec.
  rewrite (add_items_spec {| defaults_items := length (lists w) |} xs [] _ Hd).
  fields. rewrite !insert_end, !length_app. cbn [length].
  assert (H1 : ((lists w ++ [[] ++ xs]) ++ [[]]) !! length (lists w) = Some xs).
  { rewrite lookup_app_l by (rewrite length_app; simpl; lia). apply lookup_end. }
  assert (H2 : ((lists w ++ [[] ++ xs]) ++ [[]]) !! (length (lists w) + 1)%nat
               = Some []).
  { replace (length (lists w) + 1)%nat with (length (lists w ++ [[] ++ xs]))
      by (rewrite length_app; simpl; lia).
    apply lookup_end. }
  split; [lia|]. split; [exact H1|]. split; [exact H2|].
  erewrite (add_items_spec {| defaults_items := (length (lists w) + 1)%nat |} ys []).
  2: { fields. exact H2. }
  fields. split.
  - rewrite list_lookup_insert_ne by lia. exact H1.
  - apply list_lookup_insert_eq. by eapply lookup_lt_Some.
Qed.

Lemma transform_image_spec_witness :
  @Image_open toy_imaging "./image.png" = Ok 510
  ∧ @Blur.transform_image toy_imaging "./image.png"
      (@Blur.Build_state toy_imaging [] 0 [])
    = (Ok tt, @Blur.Build_state toy_imaging [Some 9] 1 [255]).
Proof.
  assert (Hopen : @Image_open toy_imaging "./image.png" = Ok 510) by reflexivity.
  split; [exact Hopen|].
  exact (@transform_image_spec toy_imaging "./image.png" 510
           (@Blur.Build_state toy_imaging [] 0 []) Hopen).
Defined.

(** ** The session *)

(** X12.  Over any calls of [add_item], [times_table], [something] and
    the closures, in any order, a list that exists keeps its elements, in
    their order, and gains at its end exactly the items of the [add_item]
    calls that were given it (or, for the list of the defaults, that
    omitted [items]): no call removes, replaces or reorders an element. *)
Theorem session_lists_only_grow (ss : session) (cs : list invocation)
    (w : world) (l : loc) (xs : list value) :
  lists w !! l = Some xs →
  lists (run_session ss cs w) !! l = Some (xs ++ (cs ≫= appends_to ss l))
  ∧ xs `prefix_of` default [] (lists (run_session ss cs w) !! l).
Proof.
  intros Hl. rewrite (run_session_lists ss cs w l xs Hl).
  split; [done|]. by apply prefix_app_r.
Qed.

Lemma session_lists_only_grow_witness :
  let ss := {| s_add_item := {| defaults_items := 0 |};
               s_something := {| co_consts := [] |} |} in
  let w := exec times_table (exec def_add_item empty_world) in
  let cs := [AddItem (VInt 7) (Some (VList 1)); TimesTable;
             AddItem (VInt 8) None; Call (VFun 0) (VList 1)] in
  lists w !! 1%nat = Some (VFun <$> seq 0 10)
  ∧ lists (run_session ss cs w) !! 1%nat = Some ((VFun <$> seq 0 10) ++ [VInt 7]).
Proof.
  intros ss w cs.
  assert (Hl : lists w !! 1%nat = Some (VFun <$> seq 0 10)) by reflexivity.
  split; [exact Hl|].
  exact (proj1 (session_lists_only_grow ss cs w 1 _ Hl)).
Defined.
